(** * Search suggestions of ckanext-discovery: the query log and its ranking

    A shallow embedding of
    [ckanext/discovery/plugins/search_suggestions/model.py]: the
    [SearchQuery] table, [SearchQuery.create], [SearchQuery.suggest],
    [create_tables], [_execute] and [_get_language], together with the
    part of the database server, of its driver and of the ORM session
    these functions drive.

    The text-search values and functions ([tsvector], [tsquery],
    [to_tsvector], [to_tsquery], [@@], [ts_rank]) belong to the database
    server, not to this repository; they are the fields of a record
    [text_search] over which every definition is parameterised.  A small
    concrete instance, [simple], is given at the end of the definitions
    and is used to run the code on examples. *)

From Stdlib Require Import QArith Lqa.
From Stdlib Require Import Ascii String.
From stdpp Require Import base decidable option list sorting strings pretty gmap fin_maps.

Local Close Scope Q_scope.
Local Open Scope string_scope.
Local Open Scope list_scope.
Local Open Scope Z_scope.

(** ** Text search *)

(** A text with a NUL character: the driver refuses to bind it and no
    text value of the server holds one. *)
Fixpoint has_nul (text : string) : bool :=
  match text with
  | EmptyString => false
  | String c rest => bool_decide (c = zero) || has_nul rest
  end.

(** The text-search module of the server: its two value types, the
    names of the configurations it knows, [to_tsvector], the parser
    behind [to_tsquery] ([None] stands for its syntax error), the match
    operator [@@] and [ts_rank].  [ts_rank] returns a single-precision
    number; only the order of ranks and their comparison with
    [min_score] are used, so a rank is taken as the rational it
    denotes.  The limits of the server on the length of a word and on
    the size of a query are left out. *)
Record text_search : Type := TextSearch {
  tsvector : Type;
  tsquery : Type;
  configuration : string → bool;
  to_tsvector : string → string → tsvector;
  parse_tsquery : string → string → option tsquery;
  ts_match : tsvector → tsquery → bool;
  ts_rank : tsvector → tsquery → Q
}.

(** The name denotes a text-search configuration of the server. *)
Definition has_config (E : text_search) (lang : string) : bool :=
  negb (has_nul lang) && configuration E lang.

(** [to_tsquery]: an error for a name that is no configuration and for
    a text the parser rejects. *)
Definition to_tsquery (E : text_search) (lang text : string) : option (tsquery E) :=
  if has_config E lang && negb (has_nul text) then parse_tsquery E lang text
  else None.

(** ** The store *)

(** A row of [discovery_searchquery]: [id] is the primary key, [q] the
    search string. *)
Record SearchQuery : Type := mkSearchQuery { id : Z; q : string }.

Global Instance SearchQuery_eq_dec : EqDecision SearchQuery.
Proof. solve_decision. Defined.

(** A table with the sequence of its [id] column. *)
Record table : Type := mkTable { rows : list SearchQuery; next_id : Z }.

(** An index: the one behind the primary key of a table, or a
    text-search index on [to_tsvector(language, q)] of a table. *)
Inductive index : Type :=
| primary_key (on_table : string)
| gin_tsvector (on_table : string) (language : string).

Global Instance index_eq_dec : EqDecision index.
Proof. solve_decision. Defined.

(** The catalog: tables and indexes by name.  The two share one name
    space on the server. *)
Record database : Type := mkDatabase {
  tables : gmap string table;
  indexes : gmap string index
}.

Definition relation_exists (db : database) (name : string) : bool :=
  bool_decide (is_Some (tables db !! name) ∨ is_Some (indexes db !! name)).

(** The name the server chooses for the index of the primary key of a new
    table: [<table>_pkey], or, when that name is taken, the first free
    one among [<table>_pkey1], [<table>_pkey2] and so on.  With [n]
    names in the catalog one of the first [n + 1] candidates is free. *)
Definition pkey_candidates (name : string) (n : nat) : list string :=
  (name +:+ "_pkey") :: ((λ i : nat, name +:+ "_pkey" +:+ pretty i) <$> seq 1 n).

Definition choose_pkey_name (db : database) (name : string) : string :=
  default (name +:+ "_pkey")
    (head (filter (λ c, relation_exists db c = false)
             (pkey_candidates name (size (tables db) + size (indexes db))))).

(** The largest values of the [Integer] column [id] and of the [bigint]
    a [LIMIT] is read as. *)
Definition int4_max : Z := 2147483647.
Definition int8_max : Z := 9223372036854775807.

(** A row of the result of the suggestion query: columns [q], [rank] and
    [count]. *)
Record suggestion : Type := mkSuggestion { s_q : string; s_rank : Q; s_count : nat }.

(** The exception classes a call can end in.  [ProgrammingError],
    [DataError], [IntegrityError] and [InternalError] are the driver's
    classes for errors reported by the server, [ValueError] is raised by
    the driver itself, [InvalidRequestError] by the ORM session. *)
Inductive exn : Type :=
| ProgrammingError
| DataError
| IntegrityError
| InternalError
| ValueError
| InvalidRequestError
| ValidationError.

Global Instance exn_eq_dec : EqDecision exn.
Proof. solve_decision. Defined.

(** The statements this module issues. *)
Inductive statement : Type :=
| create_table_sql (name : string)
| insert_sql (name : string) (text : string)
| suggest_sql (name : string) (lang terms : string) (limit : Z) (min_rank : Q)
| index_sql (name ix : string) (lang : string).

(** The texts bound to the placeholders of a statement. *)
Definition parameters (sql : statement) : list string :=
  match sql with
  | create_table_sql _ => []
  | insert_sql _ text => [text]
  | suggest_sql _ lang terms _ _ => [lang; terms]
  | index_sql _ _ lang => [lang]
  end.

(** A call ends in an exception or in a value. *)
Definition outcome (A : Type) : Type := exn + A.

(** What a statement returns. *)
Definition result_of (sql : statement) : Type :=
  match sql with
  | create_table_sql _ => unit
  | insert_sql _ _ => SearchQuery
  | suggest_sql _ _ _ _ _ => list suggestion
  | index_sql _ _ _ => unit
  end.

(** ** The suggestion query, clause by clause *)

(** [COUNT(q)] of the group of [x]. *)
Definition occurrences (x : string) (l : list string) : nat :=
  length (filter (x =.) l).

(** [GROUP BY q] with [COUNT(q)]: one pair per distinct value. *)
Definition group_count (l : list string) : list (string * nat) :=
  (λ x, (x, occurrences x l)) <$> remove_dups l.

(** [ORDER BY rank DESC, count DESC]: [a] may stand before [b]. *)
Definition order_by_b (a b : suggestion) : bool :=
  if Qeq_bool (s_rank a) (s_rank b) then (s_count b <=? s_count a)%nat
  else Qle_bool (s_rank b) (s_rank a).

Definition order_by (a b : suggestion) : Prop := order_by_b a b = true.

Global Instance order_by_dec a b : Decision (order_by a b).
Proof. unfold order_by. apply _. Defined.

(** The value bound to [:terms]: the terms joined by [' | ']. *)
Definition tsquery_text (terms : list string) : string :=
  String.concat " | " terms.


Section Server.
Context (E : text_search).

(** The innermost subquery, [match]: the rows whose text matches the
    query, grouped by text. *)
Definition matching (lang : string) (query : tsquery E) (rs : list SearchQuery)
  : list (string * nat) :=
  group_count
    (q <$> filter (λ r, ts_match E (to_tsvector E lang (q r)) query = true) rs).

(** The middle subquery, [sorted]: the rank of every group, then the
    ordering. *)
Definition ranked (lang : string) (query : tsquery E) (rs : list SearchQuery)
  : list suggestion :=
  (λ g, mkSuggestion (fst g) (ts_rank E (to_tsvector E lang (fst g)) query) (snd g))
    <$> matching lang query rs.

Definition sorted (lang : string) (query : tsquery E) (rs : list SearchQuery)
  : list suggestion :=
  merge_sort order_by (ranked lang query rs).

(** The outer query: [WHERE rank >= :min_rank LIMIT :limit], over the
    rows of [sorted] in their order. *)
Definition select_suggestions (lang : string) (query : tsquery E)
    (min_rank : Q) (limit : nat) (rs : list SearchQuery) : list suggestion :=
  take limit
    (filter (λ s, Qle_bool min_rank (s_rank s) = true) (sorted lang query rs)).

(** What the server does with a statement.  A failed statement leaves
    the data as it was, except that an [INSERT] rejected for its key has
    consumed a value of the sequence.

    [CREATE TABLE] makes the table, the sequence of [id], starting at 1,
    and the index of the primary key, under the name the server chooses;
    it fails when the name of the table is taken.  [INSERT] fails without the table, when the sequence has
    run past the [Integer] range, and when the key is in use.  For the
    suggestion query the server first resolves the table and the
    configuration, then, planning the outer query, reads the limit as a
    [bigint], then evaluates [to_tsquery] on its constant arguments, and
    when running rejects a negative [LIMIT].  The index statement is
    [DROP INDEX IF EXISTS] followed by [CREATE INDEX], run as one
    transaction: the first fails on a name that denotes a table or the
    index of a primary key, the second without the table or for a name
    that is no configuration.  A statement text cut at a NUL is not
    well-formed. *)
Definition run (sql : statement) (db : database)
  : outcome (result_of sql) * database :=
  if existsb has_nul (parameters sql) then (inl ProgrammingError, db) else
  match sql with
  | create_table_sql name =>
      if relation_exists db name then (inl ProgrammingError, db)
      else
        (inr (),
         mkDatabase (<[name := mkTable [] 1]> (tables db))
           (<[choose_pkey_name db name := primary_key name]> (indexes db)))
  | insert_sql name text =>
      match tables db !! name with
      | None => (inl ProgrammingError, db)
      | Some t =>
          let row := mkSearchQuery (next_id t) text in
          if int4_max <? next_id t then (inl DataError, db)
          else if bool_decide (next_id t ∈ id <$> rows t) then
            (inl IntegrityError,
             mkDatabase (<[name := mkTable (rows t) (next_id t + 1)]> (tables db))
               (indexes db))
          else
            (inr row,
             mkDatabase
               (<[name := mkTable (rows t ++ [row]) (next_id t + 1)]> (tables db))
               (indexes db))
      end
  | suggest_sql name lang terms limit min_rank =>
      match tables db !! name with
      | None => (inl ProgrammingError, db)
      | Some t =>
          if negb (has_config E lang) then (inl ProgrammingError, db)
          else if (limit <? - int8_max - 1) || (int8_max <? limit) then
            (inl DataError, db)
          else
            match to_tsquery E lang terms with
            | None => (inl ProgrammingError, db)
            | Some query =>
                if limit <? 0 then (inl DataError, db)
                else
                  (inr (select_suggestions lang query min_rank (Z.to_nat limit)
                          (rows t)),
                   db)
            end
      end
  | index_sql name ix lang =>
      match tables db !! ix, indexes db !! ix with
      | Some _, _ => (inl ProgrammingError, db)
      | None, Some (primary_key _) => (inl InternalError, db)
      | None, _ =>
          match tables db !! name with
          | None => (inl ProgrammingError, db)
          | Some _ =>
              if has_config E lang then
                (inr (),
                 mkDatabase (tables db)
                   (<[ix := gin_tsvector name lang]> (delete ix (indexes db))))
              else (inl ProgrammingError, db)
          end
      end
  end.

(** The ORM session is usable, or its transaction has been rolled back
    after a failed flush and nothing has rolled the session back since. *)
Inductive session_state : Type := Active | Inactive.

(** The world of the module: the data of the server, the statements the
    module has issued so far, and the state of the shared session. *)
Record server : Type := mkServer {
  store : database;
  journal : list statement;
  session : session_state
}.

(** One statement is issued: the driver binds the parameters, refusing a
    text with a NUL, and the server runs the statement. *)
Definition send (sql : statement) (s : server)
  : outcome (result_of sql) * server :=
  if existsb has_nul (parameters sql) then
    (inl ValueError, mkServer (store s) (journal s ++ [sql]) (session s))
  else
    let r := run sql (store s) in
    (fst r, mkServer (snd r) (journal s ++ [sql]) (session s)).

(** [_execute]: the statement is issued on a connection of its own. *)
Definition _execute (sql : statement) (s : server)
  : outcome (result_of sql) * server :=
  send sql s.

(** ** Configuration *)

(** Modelled from the spec: [get_config] lives in the package's
    [plugins/__init__.py], which is not among the sources.  By the
    docstring of [_get_language] and the specification's section on
    external interfaces it returns the value of the option
    [ckanext.discovery.<key>], or the given default when the option is
    not set. *)
Definition get_config (config : gmap string string) (key default_value : string)
  : string :=
  default default_value (config !! ("ckanext.discovery." +:+ key)).

Definition _get_language (config : gmap string string) : string :=
  get_config config "search_suggestions.language" "english".

(** ** The model class and the table creation *)

Definition __tablename__ : string := "discovery_searchquery".

(** [SearchQuery.create]: [Session.add] then [Session.commit].  The
    commit flushes the new instance with one [INSERT] and returns it with
    its key.  When the flush fails the session rolls its transaction back
    and stays unusable: a commit on it raises before anything is
    issued. *)
Definition create (text : string) (s : server) : outcome SearchQuery * server :=
  match session s with
  | Inactive => (inl InvalidRequestError, s)
  | Active =>
      let r := send (insert_sql __tablename__ text) s in
      match fst r with
      | inl e => (inl e, mkServer (store (snd r)) (journal (snd r)) Inactive)
      | inr row => (inr row, snd r)
      end
  end.

(** [SearchQuery.suggest]. *)
Definition suggest (config : gmap string string) (terms : list string)
    (limit : Z) (min_score : Q) (s : server) : outcome (list string) * server :=
  let results : outcome (list suggestion) * server :=
    _execute
      (suggest_sql __tablename__ (_get_language config)
         (tsquery_text terms) limit min_score) s in
  (match fst results with
   | inl e => inl e
   | inr rs => inr (s_q <$> rs)
   end, snd results).

(** [Base.metadata.create_all]: the table is created when it is
    missing. *)
Definition create_all (s : server) : outcome unit * server :=
  match tables (store s) !! __tablename__ with
  | Some _ => (inr (), s)
  | None => send (create_table_sql __tablename__) s
  end.

(** [create_tables]. *)
Definition create_tables (config : gmap string string) (s : server)
  : outcome unit * server :=
  match create_all s with
  | (inl e, s') => (inl e, s')
  | (inr _, s') =>
      _execute
        (index_sql __tablename__ (__tablename__ +:+ "_ts_index") (_get_language config))
        s'
  end.

(** ** Notions the properties are stated with *)

(** The records of a table of a database, none when there is no such
    table, and the Query Records of a server. *)
Definition records (name : string) (db : database) : list SearchQuery :=
  match tables db !! name with
  | Some t => rows t
  | None => []
  end.

Definition stored (s : server) : list SearchQuery :=
  records __tablename__ (store s).

(** The occurrence count of a text: the number of records holding it. *)
Definition occurrence_count (s : server) (text : string) : nat :=
  occurrences text (q <$> stored s).

(** The relevance rank of a text against the terms of a request. *)
Definition relevance (config : gmap string string) (terms : list string)
    (text : string) : Q :=
  let lang := _get_language config in
  match to_tsquery E lang (tsquery_text terms) with
  | Some query => ts_rank E (to_tsvector E lang text) query
  | None => 0%Q
  end.

(** The text matches the query of the request. *)
Definition matches (config : gmap string string) (terms : list string)
    (text : string) : bool :=
  let lang := _get_language config in
  match to_tsquery E lang (tsquery_text terms) with
  | Some query => ts_match E (to_tsvector E lang text) query
  | None => false
  end.

(** The statement [suggest] issues. *)
Definition suggest_statement (config : gmap string string)
    (terms : list string) (limit : Z) (min_score : Q) : statement :=
  suggest_sql __tablename__ (_get_language config) (tsquery_text terms)
    limit min_score.

(** What [create_tables] does to the data, and with which outcome. *)
Definition rebuild_index (lang : string) (db : database)
  : outcome unit * database :=
  if has_nul lang then (inl ValueError, db)
  else run (index_sql __tablename__ (__tablename__ +:+ "_ts_index") lang) db.

Definition create_tables_data (config : gmap string string) (db : database)
  : outcome unit * database :=
  match tables db !! __tablename__ with
  | Some _ => rebuild_index (_get_language config) db
  | None =>
      match run (create_table_sql __tablename__) db with
      | (inl e, db') => (inl e, db')
      | (inr _, db') => rebuild_index (_get_language config) db'
      end
  end.
End Server.

(** The names of the text-search index and of the index of the primary
    key. *)
Definition ts_index_name : string := __tablename__ +:+ "_ts_index".
Definition pkey_name : string := __tablename__ +:+ "_pkey".

(** The names of the module are free or denote the module's objects: the
    index name is no table and no primary key, the table is there or
    neither its name nor that of its primary key is taken, and a
    text-search index on the table bears the module's index name. *)
Definition catalog_ok (db : database) : Prop :=
  tables db !! ts_index_name = None ∧
  (∀ name, indexes db !! ts_index_name ≠ Some (primary_key name)) ∧
  (tables db !! __tablename__ = None →
   relation_exists db __tablename__ = false ∧
   relation_exists db pkey_name = false) ∧
  (∀ i lang, indexes db !! i = Some (gin_tsvector __tablename__ lang) →
             i = ts_index_name).

(** The catalog holds nothing but the module's objects: the table, the
    index of its primary key, which is there exactly when the table is,
    and the text-search index. *)
Definition module_objects_only (db : database) : Prop :=
  (∀ name t, tables db !! name = Some t → name = __tablename__) ∧
  (∀ i d, indexes db !! i = Some d →
          (i = pkey_name ∧ d = primary_key __tablename__) ∨
          (i = ts_index_name ∧ ∃ lang, d = gin_tsvector __tablename__ lang)) ∧
  (is_Some (tables db !! __tablename__) ↔ is_Some (indexes db !! pkey_name)).

(** The sequence of a table is ahead of the keys in use. *)
Definition sequence_ahead (t : table) : Prop :=
  ∀ r, r ∈ rows t → id r < next_id t.

(** ** A concrete text-search instance

    [simple] stands for the server's configuration of that name, which
    neither stems nor drops words, on documents and terms written with
    ASCII letters, digits and spaces and on query texts written with
    such words, [|], [&], [!], parentheses and the modifiers after [:].
    A document is cut into its runs of letters and digits, folded to
    lower case.  In a query text [!] binds tightest and [|] loosest; a
    word may be followed by [:] and modifiers, [*] for a prefix match and
    the weight labels [A] to [D]; the empty text is the empty query, which
    matches nothing; an ill-formed text is a syntax error.  ["simple"] is
    the only configuration the instance knows.  Its rank, a tenth of the
    number of lexemes of the document the query mentions, is not the
    server's; it serves to run the code on examples where ranks are equal
    or differ. *)
Module Simple.

Inductive query : Type :=
| QEmpty
| QVal (lexeme : string) (prefix : bool) (weights : list ascii)
| QNot (a : query)
| QAnd (a b : query)
| QOr (a b : query).

(** The lexemes of a document made by [to_tsvector] all have weight [D]:
    an operand with labels matches them when [D] is among the labels. *)
Definition weight_matches (weights : list ascii) : bool :=
  bool_decide (weights = []) || bool_decide ("d"%char ∈ weights).

Definition lexeme_matches (v : list string) (x : string) (prefix : bool) : bool :=
  if prefix then existsb (String.prefix x) v else bool_decide (x ∈ v).

Fixpoint eval (v : list string) (qu : query) : bool :=
  match qu with
  | QEmpty => false
  | QVal x p ws => weight_matches ws && lexeme_matches v x p
  | QNot a => negb (eval v a)
  | QAnd a b => eval v a && eval v b
  | QOr a b => eval v a || eval v b
  end.

Fixpoint operands (qu : query) : list string :=
  match qu with
  | QEmpty => []
  | QVal x _ _ => [x]
  | QNot a => operands a
  | QAnd a b | QOr a b => operands a ++ operands b
  end.

Definition is_alnum (c : ascii) : bool :=
  let n := nat_of_ascii c in
  ((48 <=? n) && (n <=? 57) || (65 <=? n) && (n <=? 90)
   || (97 <=? n) && (n <=? 122))%nat.

Definition lower (c : ascii) : ascii :=
  let n := nat_of_ascii c in
  if ((65 <=? n) && (n <=? 90))%nat then ascii_of_nat (n + 32) else c.

Definition flush (word : string) : list string :=
  if decide (word = "") then [] else [word].

Fixpoint lexemes_from (word text : string) : list string :=
  match text with
  | EmptyString => flush word
  | String c rest =>
      if is_alnum c then lexemes_from (word +:+ String (lower c) "") rest
      else flush word ++ lexemes_from "" rest
  end.

Definition lexemes (text : string) : list string := lexemes_from "" text.

Inductive token : Type :=
| TVal (word : string) (prefix : bool) (weights : list ascii)
| TOr
| TAnd
| TNot
| TOpen
| TClose
| TColon.

Definition operator (c : ascii) : option token :=
  if decide (c = "|"%char) then Some TOr
  else if decide (c = "&"%char) then Some TAnd
  else if decide (c = "!"%char) then Some TNot
  else if decide (c = "("%char) then Some TOpen
  else if decide (c = ")"%char) then Some TClose
  else if decide (c = ":"%char) then Some TColon
  else None.

Definition is_label (c : ascii) : bool :=
  bool_decide (lower c ∈ ["a"%char; "b"%char; "c"%char; "d"%char]).

(** Where the scanner stands: between operands, inside a word, or inside
    the modifiers of a word. *)
Inductive scanning : Type :=
| Between
| InWord (word : string)
| InModifiers (word : string) (prefix : bool) (weights : list ascii).

Definition finish (st : scanning) : list token :=
  match st with
  | Between => []
  | InWord w => [TVal w false []]
  | InModifiers w p ws => [TVal w p ws]
  end.

Definition start (c : ascii) : list token * scanning :=
  match operator c with
  | Some t => ([t], Between)
  | None =>
      if decide (c = " "%char) then ([], Between) else ([], InWord (String c ""))
  end.

Definition step (st : scanning) (c : ascii) : list token * scanning :=
  match st with
  | Between => start c
  | InWord w =>
      if decide (c = ":"%char) then ([], InModifiers w false [])
      else
        match operator c with
        | Some t => ([TVal w false []; t], Between)
        | None =>
            if decide (c = " "%char) then ([TVal w false []], Between)
            else ([], InWord (w +:+ String c ""))
        end
  | InModifiers w p ws =>
      if decide (c = "*"%char) then ([], InModifiers w true ws)
      else if is_label c then ([], InModifiers w p (ws ++ [lower c]))
      else (TVal w p ws :: fst (start c), snd (start c))
  end.

Fixpoint scan (st : scanning) (text : string) : list token :=
  match text with
  | EmptyString => finish st
  | String c rest => fst (step st c) ++ scan (snd (step st c)) rest
  end.

(** The query of one operand: the conjunction of its lexemes, each with
    the modifiers of the operand. *)
Fixpoint conj (xs : list string) (p : bool) (ws : list ascii) : query :=
  match xs with
  | [] => QEmpty
  | [x] => QVal x p ws
  | x :: rest => QAnd (QVal x p ws) (conj rest p ws)
  end.

Inductive level : Type := Disj | Conj | Unary.

Fixpoint parse (fuel : nat) (lv : level) (ts : list token)
  : option (query * list token) :=
  match fuel with
  | O => None
  | S n =>
      match lv with
      | Disj =>
          match parse n Conj ts with
          | Some (a, TOr :: rest) =>
              match parse n Disj rest with
              | Some (b, rest') => Some (QOr a b, rest')
              | None => None
              end
          | other => other
          end
      | Conj =>
          match parse n Unary ts with
          | Some (a, TAnd :: rest) =>
              match parse n Conj rest with
              | Some (b, rest') => Some (QAnd a b, rest')
              | None => None
              end
          | other => other
          end
      | Unary =>
          match ts with
          | TVal w p ws :: rest => Some (conj (lexemes w) p ws, rest)
          | TNot :: rest =>
              match parse n Unary rest with
              | Some (a, rest') => Some (QNot a, rest')
              | None => None
              end
          | TOpen :: rest =>
              match parse n Disj rest with
              | Some (a, TClose :: rest') => Some (a, rest')
              | _ => None
              end
          | _ => None
          end
      end
  end.

(** Every call of [parse] either consumes a token or goes one level
    down, so three times the number of tokens, and three more, is fuel
    enough. *)
Definition parse_query (text : string) : option query :=
  match scan Between text with
  | [] => Some QEmpty
  | ts =>
      match parse (3 * length ts + 3) Disj ts with
      | Some (a, []) => Some a
      | _ => None
      end
  end.

Definition rank (v : list string) (qu : query) : Q :=
  Qmake (Z.of_nat (length (filter (λ x, x ∈ operands qu) v))) 10.

End Simple.

Definition simple : text_search :=
  TextSearch (list string) Simple.query
    (λ lang, bool_decide (lang = "simple"))
    (λ _, Simple.lexemes) (λ _, Simple.parse_query) Simple.eval Simple.rank.

(** A site configured for the configuration [simple], and one configured
    for a language the server does not know. *)
Definition simple_config : gmap string string :=
  {[ "ckanext.discovery.search_suggestions.language" := "simple" ]}.

Definition klingon_config : gmap string string :=
  {[ "ckanext.discovery.search_suggestions.language" := "klingon" ]}.

(** The server with no table and a usable session, and a server holding
    given texts. *)
Definition empty_server : server :=
  mkServer (mkDatabase ∅ ∅) [] Active.

Definition log_all (E : text_search) (texts : list string) (s : server) : server :=
  foldl (λ s text, snd (create E text s)) s texts.

Definition server_with (texts : list string) : server :=
  log_all simple texts (snd (create_tables simple simple_config empty_server)).

(** The store of the specification's scenario B: "cat dog" logged three
    times and "cat fish" once; and a store with the single text
    "cat dog". *)
Definition scenario_b : server :=
  server_with ["cat dog"; "cat fish"; "cat dog"; "cat dog"].

Definition one_text : server := server_with ["cat dog"].


(** The states the functions of the module bring the server to, from the
    server with no table. *)
Inductive reachable (E : text_search) : server → Prop :=
| reachable_empty : reachable E empty_server
| reachable_create_tables config s :
    reachable E s → reachable E (create_tables E config s).2
| reachable_create text s :
    reachable E s → reachable E (create E text s).2
| reachable_suggest config terms limit min_score s :
    reachable E s → reachable E (suggest E config terms limit min_score s).2.

(** The keys of the Query Records are in order: the sequence is ahead of
    them and no two records have the same key. *)
Definition keys_in_order (s : server) : Prop :=
  ∀ t, tables (store s) !! __tablename__ = Some t →
       sequence_ahead t ∧ NoDup (id <$> rows t).
(** * Properties *)

(** ** The ordering of the suggestion query *)

Lemma order_by_spec a b :
  order_by a b ↔
  (s_rank b < s_rank a)%Q ∨ ((s_rank a == s_rank b)%Q ∧ (s_count b ≤ s_count a)%nat).
Proof.
  unfold order_by, order_by_b.
  destruct (Qeq_bool (s_rank a) (s_rank b)) eqn:Heq.
  - apply Qeq_bool_iff in Heq. rewrite Nat.leb_le. split.
    + intros Hc. right. split; [exact Heq | exact Hc].
    + intros [Hlt | [_ Hc]]; [lra | exact Hc].
  - apply Qeq_bool_neq in Heq. rewrite Qle_bool_iff. split.
    + intros Hle. left. lra.
    + intros [Hlt | [He _]]; [lra | contradiction].
Qed.

Global Instance order_by_total : Total order_by.
Proof.
  intros a b. rewrite !order_by_spec.
  destruct (Qlt_le_dec (s_rank b) (s_rank a)) as [Hlt | Hle]; [left; left; exact Hlt |].
  destruct (Qlt_le_dec (s_rank a) (s_rank b)) as [Hlt' | Hle']; [right; left; exact Hlt' |].
  assert (s_rank a == s_rank b)%Q as He by lra.
  destruct (Nat.le_ge_cases (s_count a) (s_count b)) as [Hc | Hc].
  - right. right. split; [symmetry; exact He | exact Hc].
  - left. right. split; [exact He | exact Hc].
Qed.

Global Instance order_by_trans : Transitive order_by.
Proof.
  intros a b c. rewrite !order_by_spec.
  intros [H1 | [H1 C1]] [H2 | [H2 C2]].
  - left. lra.
  - left. lra.
  - left. lra.
  - right. split; [lra | lia].
Qed.

(** ** Sorted lists and their sublists *)

Lemma StronglySorted_sublist {A} (R : relation A) (l1 l2 : list A) :
  l1 `sublist_of` l2 → StronglySorted R l2 → StronglySorted R l1.
Proof.
  induction 1 as [| x l1 l2 Hsub IH | x l1 l2 Hsub IH]; intros Hs.
  - constructor.
  - apply StronglySorted_cons in Hs as [Hall Hs]. constructor; [auto |].
    rewrite Forall_forall in Hall |- *. intros y Hy. apply Hall.
    exact (sublist_subseteq _ _ Hsub _ Hy).
  - apply StronglySorted_cons in Hs as [_ Hs]. auto.
Qed.

Lemma StronglySorted_lookup {A} (R : relation A) (l : list A) i j a b :
  StronglySorted R l → (i < j)%nat → l !! i = Some a → l !! j = Some b → R a b.
Proof.
  intros Hs. revert i j. induction Hs as [| x l Hs IH Hall]; intros i j Hij Hi Hj.
  - discriminate.
  - destruct j as [| j]; [lia |]. destruct i as [| i]; simpl in *.
    + injection Hi as ->. rewrite Forall_forall in Hall. apply Hall.
      apply list_elem_of_lookup. eauto.
    + apply (IH i j); [lia | assumption..].
Qed.

(** ** The clauses of the suggestion query *)

Lemma length_remove_dups_le (l : list string) :
  (length (remove_dups l) ≤ length l)%nat.
Proof.
  induction l as [| x l IH]; simpl; [lia |].
  destruct (decide_rel elem_of x l); simpl; lia.
Qed.

Lemma fmap_same {A} (f : A → A) (l : list A) :
  (∀ x, f x = x) → f <$> l = l.
Proof.
  intros Hf. induction l as [| x l IH]; [reflexivity |].
  rewrite fmap_cons, Hf, IH. reflexivity.
Qed.

Lemma occurrences_app x (l k : list string) :
  occurrences x (l ++ k) = (occurrences x l + occurrences x k)%nat.
Proof. unfold occurrences. rewrite filter_app, length_app. lia. Qed.


Section Query.
Context (E : text_search).
Implicit Types (rs : list SearchQuery) (query : tsquery E) (lang : string).

(** The rows with one text match together or not at all, so the count
    of a group is the number of records with its text. *)
Lemma occurrences_matching lang query rs x :
  ts_match E (to_tsvector E lang x) query = true →
  occurrences x
    (q <$> filter (λ r, ts_match E (to_tsvector E lang (q r)) query = true) rs)
  = occurrences x (q <$> rs).
Proof.
  intros Hx. unfold occurrences. induction rs as [| r rs IH]; [reflexivity |].
  rewrite filter_cons. destruct (decide _) as [Hr | Hr].
  - rewrite !fmap_cons, !filter_cons. destruct (decide (x = q r)); simpl; congruence.
  - rewrite fmap_cons, (filter_cons_False _ (q r)); [exact IH |].
    intros ->. contradiction.
Qed.

Lemma elem_of_ranked lang query rs a :
  a ∈ ranked E lang query rs ↔
  s_q a ∈ q <$> rs ∧
  ts_match E (to_tsvector E lang (s_q a)) query = true ∧
  s_rank a = ts_rank E (to_tsvector E lang (s_q a)) query ∧
  s_count a = occurrences (s_q a) (q <$> rs).
Proof.
  unfold ranked, matching, group_count.
  rewrite list_elem_of_fmap. setoid_rewrite list_elem_of_fmap.
  setoid_rewrite elem_of_remove_dups. setoid_rewrite list_elem_of_fmap.
  setoid_rewrite list_elem_of_filter. split.
  - intros (g & -> & x & -> & r & -> & Hm & Hr). simpl.
    split; [exists r; auto |]. split; [exact Hm |]. split; [reflexivity |].
    apply occurrences_matching, Hm.
  - intros ((r & Hq & Hr) & Hm & Hrank & Hcount).
    exists (s_q a, occurrences (s_q a)
      (q <$> filter (λ r, ts_match E (to_tsvector E lang (q r)) query = true) rs)).
    simpl. split.
    + rewrite occurrences_matching by exact Hm.
      destruct a as [x k c]; simpl in *. congruence.
    + exists (s_q a). split; [reflexivity |]. exists r.
      split; [exact Hq |]. split; [rewrite <- Hq; exact Hm | exact Hr].
Qed.

Lemma NoDup_ranked lang query rs : NoDup (s_q <$> ranked E lang query rs).
Proof.
  unfold ranked, matching, group_count.
  rewrite <- !list_fmap_compose.
  rewrite fmap_same by (intros; reflexivity). apply NoDup_remove_dups.
Qed.

Lemma length_ranked lang query rs :
  (length (ranked E lang query rs) ≤ length rs)%nat.
Proof.
  unfold ranked, matching, group_count. rewrite !length_fmap.
  etransitivity; [apply length_remove_dups_le |].
  rewrite length_fmap. apply length_filter.
Qed.

Lemma sorted_ranked lang query rs :
  sorted E lang query rs ≡ₚ ranked E lang query rs.
Proof. apply merge_sort_Permutation. Qed.

Lemma sorted_StronglySorted lang query rs :
  StronglySorted order_by (sorted E lang query rs).
Proof. apply (StronglySorted_merge_sort order_by). Qed.

Lemma select_sublist lang query min_rank limit rs :
  select_suggestions E lang query min_rank limit rs
    `sublist_of` sorted E lang query rs.
Proof.
  unfold select_suggestions. etransitivity; [apply sublist_take |].
  apply sublist_filter.
Qed.

Lemma elem_of_select lang query min_rank limit rs a :
  a ∈ select_suggestions E lang query min_rank limit rs →
  a ∈ ranked E lang query rs ∧ (min_rank <= s_rank a)%Q.
Proof.
  unfold select_suggestions. intros Ha.
  apply (sublist_subseteq _ _ (sublist_take _ _)) in Ha.
  apply list_elem_of_filter in Ha as [Hmin Ha].
  rewrite sorted_ranked in Ha. split; [exact Ha |].
  apply Qle_bool_iff, Hmin.
Qed.

Lemma select_StronglySorted lang query min_rank limit rs :
  StronglySorted order_by (select_suggestions E lang query min_rank limit rs).
Proof.
  eapply StronglySorted_sublist; [apply select_sublist |].
  apply sorted_StronglySorted.
Qed.

Lemma select_NoDup lang query min_rank limit rs :
  NoDup (s_q <$> select_suggestions E lang query min_rank limit rs).
Proof.
  apply (sublist_NoDup _ (s_q <$> sorted E lang query rs)).
  - rewrite sorted_ranked. apply NoDup_ranked.
  - apply fmap_sublist, select_sublist.
Qed.


Lemma select_complete lang query min_rank limit rs a :
  (length rs ≤ limit)%nat →
  a ∈ ranked E lang query rs → (min_rank <= s_rank a)%Q →
  a ∈ select_suggestions E lang query min_rank limit rs.
Proof.
  intros Hlen Ha Hmin. unfold select_suggestions. rewrite take_ge.
  - apply list_elem_of_filter. split; [apply Qle_bool_iff, Hmin |].
    rewrite sorted_ranked. exact Ha.
  - etransitivity; [apply length_filter |].
    rewrite sorted_ranked. etransitivity; [apply length_ranked | exact Hlen].
Qed.
End Query.

(** ** [SearchQuery.suggest] *)

Lemma to_tsquery_Some E lang text (query : tsquery E) :
  to_tsquery E lang text = Some query →
  has_config E lang = true ∧ has_nul lang = false ∧ has_nul text = false.
Proof.
  unfold to_tsquery, has_config.
  destruct (has_nul lang), (configuration E lang), (has_nul text); simpl;
    intros Hq; try discriminate; auto.
Qed.

Lemma limit_in_range (limit : Z) :
  - int8_max - 1 ≤ limit ≤ int8_max →
  ((limit <? - int8_max - 1) || (int8_max <? limit)) = false.
Proof.
  intros Hl. apply orb_false_iff. split; apply Z.ltb_ge; lia.
Qed.

Section Suggest.
Context (E : text_search).
Implicit Types (config : gmap string string) (terms : list string).
Implicit Types (s : server) (t : table) (query : tsquery E).

Lemma suggest_unfold config terms limit min_score s :
  suggest E config terms limit min_score s =
  (if has_nul (_get_language config) || has_nul (tsquery_text terms) then
     inl ValueError
   else
     match tables (store s) !! __tablename__ with
     | None => inl ProgrammingError
     | Some t =>
         if negb (has_config E (_get_language config)) then inl ProgrammingError
         else if (limit <? - int8_max - 1) || (int8_max <? limit) then inl DataError
         else
           match to_tsquery E (_get_language config) (tsquery_text terms) with
           | None => inl ProgrammingError
           | Some query =>
               if limit <? 0 then inl DataError
               else inr (s_q <$> select_suggestions E (_get_language config) query
                                   min_score (Z.to_nat limit) (rows t))
           end
     end,
   mkServer (store s)
     (journal s ++ [suggest_statement config terms limit min_score]) (session s)).
Proof.
  unfold suggest, _execute, send, run, suggest_statement.
  cbn [parameters existsb]. rewrite orb_false_r.
  destruct (has_nul (_get_language config) || has_nul (tsquery_text terms));
    [reflexivity |]. cbn [fst snd].
  destruct (tables (store s) !! __tablename__) as [t |]; [| reflexivity].
  destruct (negb (has_config E (_get_language config))); [reflexivity |].
  destruct ((limit <? - int8_max - 1) || (int8_max <? limit)); [reflexivity |].
  destruct (to_tsquery E _ _) as [query |]; [| reflexivity].
  destruct (limit <? 0); reflexivity.
Qed.

Lemma suggest_returns config terms limit min_score s l :
  (suggest E config terms limit min_score s).1 = inr l →
  ∃ t query,
    tables (store s) !! __tablename__ = Some t ∧
    to_tsquery E (_get_language config) (tsquery_text terms) = Some query ∧
    0 ≤ limit ≤ int8_max ∧
    l = s_q <$> select_suggestions E (_get_language config) query min_score
                  (Z.to_nat limit) (rows t).
Proof.
  rewrite suggest_unfold. cbn [fst].
  destruct (has_nul _ || has_nul _); [discriminate |].
  destruct (tables (store s) !! __tablename__) as [t |]; [| discriminate].
  destruct (negb _); [discriminate |].
  destruct (Z.ltb_spec limit (- int8_max - 1)); [discriminate |].
  destruct (Z.ltb_spec int8_max limit); [discriminate |]. cbn [orb].
  destruct (to_tsquery E _ _) as [query |]; [| discriminate].
  destruct (Z.ltb_spec limit 0); [discriminate |].
  intros [= <-]. exists t, query. repeat split; auto; lia.
Qed.

Lemma suggest_succeeds config terms limit min_score s t query :
  tables (store s) !! __tablename__ = Some t →
  to_tsquery E (_get_language config) (tsquery_text terms) = Some query →
  0 ≤ limit ≤ int8_max →
  (suggest E config terms limit min_score s).1 =
  inr (s_q <$> select_suggestions E (_get_language config) query min_score
                 (Z.to_nat limit) (rows t)).
Proof.
  intros Ht Hq Hl. destruct (to_tsquery_Some _ _ _ _ Hq) as (Hc & Hn1 & Hn2).
  rewrite suggest_unfold. cbn [fst]. rewrite Hn1, Hn2, Ht, Hc, Hq. cbn [orb negb].
  rewrite limit_in_range by lia.
  destruct (Z.ltb_spec limit 0); [lia | reflexivity].
Qed.

(** The entries behind the strings of a result. *)
Lemma selected_entry config terms min_score limit s t query a :
  tables (store s) !! __tablename__ = Some t →
  to_tsquery E (_get_language config) (tsquery_text terms) = Some query →
  a ∈ select_suggestions E (_get_language config) query min_score limit (rows t) →
  (∃ r, r ∈ stored s ∧ q r = s_q a) ∧
  matches E config terms (s_q a) = true ∧
  s_rank a = relevance E config terms (s_q a) ∧
  s_count a = occurrence_count s (s_q a) ∧
  (min_score <= s_rank a)%Q.
Proof.
  intros Ht Hq Ha. apply elem_of_select in Ha as [Ha Hmin].
  apply elem_of_ranked in Ha as (Hin & Hm & Hrank & Hcount).
  unfold matches, relevance, occurrence_count, stored, records. rewrite Ht, Hq.
  apply list_elem_of_fmap in Hin as (r & Hr & Hin). eauto 10.
Qed.

(** C1.  Whenever [suggest] returns a list, an entry standing before
    another has a relevance rank at least as high, and when their ranks
    are equal its occurrence count is at least as high: the list is
    sorted descending by rank, ties by descending count. *)
Theorem suggest_sorted_by_rank_then_count config terms limit min_score s l :
  (suggest E config terms limit min_score s).1 = inr l →
  ∀ i j x y, (i < j)%nat → l !! i = Some x → l !! j = Some y →
    (relevance E config terms y <= relevance E config terms x)%Q ∧
    ((relevance E config terms x == relevance E config terms y)%Q →
     (occurrence_count s y ≤ occurrence_count s x)%nat).
Proof.
  intros Hret i j x y Hij Hi Hj.
  apply suggest_returns in Hret as (t & query & Ht & Hq & _ & ->).
  apply list_lookup_fmap_Some in Hi as (a & -> & Ha).
  apply list_lookup_fmap_Some in Hj as (b & -> & Hb).
  pose proof (StronglySorted_lookup _ _ _ _ _ _
                (select_StronglySorted E _ _ _ _ _) Hij Ha Hb) as Hab.
  apply order_by_spec in Hab.
  assert (a ∈ select_suggestions E (_get_language config) query min_score
                (Z.to_nat limit) (rows t)) as Hina
    by (apply list_elem_of_lookup; eauto).
  assert (b ∈ select_suggestions E (_get_language config) query min_score
                (Z.to_nat limit) (rows t)) as Hinb
    by (apply list_elem_of_lookup; eauto).
  destruct (selected_entry config terms min_score _ s t query a Ht Hq Hina)
    as (_ & _ & <- & <- & _).
  destruct (selected_entry config terms min_score _ s t query b Ht Hq Hinb)
    as (_ & _ & <- & <- & _).
  destruct Hab as [Hlt | [Heq Hc]].
  - split; [lra |]. intros Heq. lra.
  - split; [lra |]. intros _. exact Hc.
Qed.

(** C3.  Whenever [suggest] returns a list, no entry has a relevance
    rank below [min_score]; and a stored, matching text whose rank is
    [min_score] or more, so also one whose rank is exactly [min_score],
    is in the list as soon as the limit does not cut it off. *)
Theorem suggest_min_score config terms limit min_score s l :
  (suggest E config terms limit min_score s).1 = inr l →
  (∀ x, x ∈ l → ¬ (relevance E config terms x < min_score)%Q) ∧
  (∀ r, r ∈ stored s → matches E config terms (q r) = true →
        (min_score <= relevance E config terms (q r))%Q →
        Z.of_nat (length (stored s)) ≤ limit →
        q r ∈ l).
Proof.
  intros Hret.
  apply suggest_returns in Hret as (t & query & Ht & Hq & Hl & ->). split.
  - intros x Hx. apply list_elem_of_fmap in Hx as (a & -> & Ha).
    destruct (selected_entry config terms min_score _ s t query a Ht Hq Ha)
      as (_ & _ & <- & _ & Hmin). lra.
  - intros r Hr Hm Hrank Hlen. unfold stored, records in Hr, Hlen.
    rewrite Ht in Hr, Hlen.
    unfold matches in Hm. unfold relevance in Hrank. rewrite Hq in Hm, Hrank.
    apply list_elem_of_fmap.
    exists (mkSuggestion (q r)
              (ts_rank E (to_tsvector E (_get_language config) (q r)) query)
              (occurrences (q r) (q <$> rows t))).
    split; [reflexivity |]. apply select_complete; [lia | | exact Hrank].
    apply elem_of_ranked. simpl. split; [| auto].
    apply list_elem_of_fmap. eauto.
Qed.


(** C5, as the code has it.  On a store that has the table, when the
    server reads the empty text as a query that matches nothing, and for
    a limit from 0 to the largest [bigint], [suggest] with no terms
    returns the empty list and raises nothing. *)
Theorem suggest_no_terms config limit min_score s t query :
  tables (store s) !! __tablename__ = Some t →
  to_tsquery E (_get_language config) "" = Some query →
  (∀ v, ts_match E v query = false) →
  0 ≤ limit ≤ int8_max →
  (suggest E config [] limit min_score s).1 = inr [].
Proof.
  intros Ht Hq Hnone Hl.
  rewrite (suggest_succeeds config [] limit min_score s t query Ht Hq Hl).
  f_equal. unfold select_suggestions, sorted, ranked, matching.
  replace (filter _ (rows t)) with (@nil SearchQuery).
  { change (s_q <$> take (Z.to_nat limit) [] = []).
    rewrite take_nil. reflexivity. }
  symmetry. induction (rows t) as [| r rs IH]; [reflexivity |].
  rewrite filter_cons_False; [exact IH |]. rewrite Hnone. discriminate.
Qed.

(** C10.  Whatever its arguments and whether it returns or raises,
    [suggest] leaves the data of the store, and so the Query Records,
    as they were. *)
Theorem suggest_preserves_store config terms limit min_score s :
  store (suggest E config terms limit min_score s).2 = store s ∧
  stored (suggest E config terms limit min_score s).2 = stored s.
Proof. rewrite suggest_unfold. split; reflexivity. Qed.
End Suggest.

Section NegativeLimit.
Context (E : text_search).

End NegativeLimit.

(** ** The terms of a request *)





Section Terms.
Context (E : text_search).
Implicit Types (config : gmap string string) (terms : list string) (s : server).

End Terms.

(** ** [create_tables] *)

Lemma names_distinct :
  ts_index_name ≠ __tablename__ ∧ pkey_name ≠ __tablename__ ∧
  pkey_name ≠ ts_index_name.
Proof. repeat split; intros H; vm_compute in H; discriminate H. Qed.

(** The server gives the index of the primary key its usual name when
    that name is free. *)
Lemma choose_pkey_name_free db :
  relation_exists db pkey_name = false →
  choose_pkey_name db __tablename__ = pkey_name.
Proof.
  intros Hfree. unfold choose_pkey_name, pkey_candidates. fold pkey_name.
  rewrite filter_cons_True by exact Hfree. reflexivity.
Qed.

Section CreateTables.
Context (E : text_search).
Implicit Types (config : gmap string string) (s : server) (db : database).

(** The outcome of [create_tables] and its effect on the data are those
    of [create_tables_data] on the data. *)
Lemma create_tables_as_data config s :
  (create_tables E config s).1 = (create_tables_data E config (store s)).1 ∧
  store (create_tables E config s).2 = (create_tables_data E config (store s)).2.
Proof.
  unfold create_tables, create_tables_data, create_all, _execute, send, rebuild_index.
  destruct (tables (store s) !! __tablename__) as [t |] eqn:Ht.
  - cbn [parameters existsb]. rewrite orb_false_r.
    destruct (has_nul (_get_language config)); [split; reflexivity |].
    cbn [fst snd store]. split; reflexivity.
  - cbn [parameters existsb].
    destruct (run E (create_table_sql __tablename__) (store s)) as [[e | []] db'];
      cbn [fst snd store]; [split; reflexivity |].
    rewrite orb_false_r.
    destruct (has_nul (_get_language config)); [split; reflexivity |].
    cbn [fst snd store]. split; reflexivity.
Qed.

Lemma rebuild_index_tables lang db :
  tables (rebuild_index E lang db).2 = tables db.
Proof.
  unfold rebuild_index, run. destruct (has_nul lang) eqn:Hn; [reflexivity |].
  cbn [parameters existsb]. rewrite Hn. cbn [orb].
  fold ts_index_name.
  destruct (tables db !! ts_index_name) as [t' |]; [reflexivity |].
  destruct (indexes db !! ts_index_name) as [[name | name l] |];
    [reflexivity | |];
    (destruct (tables db !! __tablename__) as [t |]; [| reflexivity]);
    destruct (has_config E lang); reflexivity.
Qed.

(** Rebuilding the index a second time changes nothing and ends like
    the first time. *)
Lemma rebuild_index_again lang db :
  rebuild_index E lang (rebuild_index E lang db).2 = rebuild_index E lang db.
Proof.
  unfold rebuild_index, run. destruct (has_nul lang) eqn:Hn; [reflexivity |].
  cbn [parameters existsb]. rewrite Hn. cbn [orb].
  fold ts_index_name.
  destruct (tables db !! ts_index_name) as [t' |] eqn:Hix;
    [cbn [snd]; rewrite Hix; reflexivity |].
  destruct (indexes db !! ts_index_name) as [[name | name l] |] eqn:Hi.
  - cbn [snd]. rewrite Hix, Hi. reflexivity.
  - destruct (tables db !! __tablename__) as [t |] eqn:Ht;
      [| cbn [snd]; rewrite Hix, Hi, Ht; reflexivity].
    destruct (has_config E lang) eqn:Hc;
      [| cbn [snd]; rewrite Hix, Hi, Ht; reflexivity].
    cbn [snd tables indexes]. rewrite Hix, lookup_insert_eq, Ht.
    rewrite insert_delete_eq, insert_insert_eq, insert_delete_eq. reflexivity.
  - destruct (tables db !! __tablename__) as [t |] eqn:Ht;
      [| cbn [snd]; rewrite Hix, Hi, Ht; reflexivity].
    destruct (has_config E lang) eqn:Hc;
      [| cbn [snd]; rewrite Hix, Hi, Ht; reflexivity].
    cbn [snd tables indexes]. rewrite Hix, lookup_insert_eq, Ht.
    rewrite insert_delete_eq, insert_insert_eq, insert_delete_eq. reflexivity.
Qed.

Lemma run_create_table db :
  run E (create_table_sql __tablename__) db =
  if relation_exists db __tablename__ then (inl ProgrammingError, db)
  else
    (inr (),
     mkDatabase (<[__tablename__ := mkTable [] 1]> (tables db))
       (<[choose_pkey_name db __tablename__ := primary_key __tablename__]>
          (indexes db))).
Proof. reflexivity. Qed.

Lemma create_tables_data_again config db :
  create_tables_data E config (create_tables_data E config db).2
  = create_tables_data E config db.
Proof.
  unfold create_tables_data.
  destruct (tables db !! __tablename__) as [t |] eqn:Ht.
  - rewrite rebuild_index_tables, Ht. apply rebuild_index_again.
  - rewrite run_create_table.
    destruct (relation_exists db __tablename__) eqn:Hr.
    + cbn [snd]. rewrite Ht, run_create_table, Hr. reflexivity.
    + rewrite rebuild_index_tables. cbn [tables]. rewrite lookup_insert_eq.
      apply rebuild_index_again.
Qed.

Lemma rebuild_index_records lang db name :
  records name (rebuild_index E lang db).2 = records name db.
Proof. unfold records. rewrite rebuild_index_tables. reflexivity. Qed.

Lemma create_tables_data_records config db :
  records __tablename__ (create_tables_data E config db).2 = records __tablename__ db.
Proof.
  unfold create_tables_data.
  destruct (tables db !! __tablename__) as [t |] eqn:Ht.
  - apply rebuild_index_records.
  - rewrite run_create_table.
    destruct (relation_exists db __tablename__); [reflexivity |].
    rewrite rebuild_index_records. unfold records. cbn [tables].
    rewrite lookup_insert_eq, Ht. reflexivity.
Qed.

(** On a catalog whose names are in order and for a configuration the
    server knows, the data [create_tables] leaves. *)
Lemma create_tables_data_ok config db :
  catalog_ok db →
  has_config E (_get_language config) = true →
  create_tables_data E config db =
  (inr (),
   match tables db !! __tablename__ with
   | Some _ =>
       mkDatabase (tables db)
         (<[ts_index_name := gin_tsvector __tablename__ (_get_language config)]>
            (indexes db))
   | None =>
       mkDatabase (<[__tablename__ := mkTable [] 1]> (tables db))
         (<[ts_index_name := gin_tsvector __tablename__ (_get_language config)]>
            (<[pkey_name := primary_key __tablename__]> (indexes db)))
   end).
Proof.
  intros (Hix & Hpk & Hfree & _) Hc.
  destruct names_distinct as (Hn1 & Hn2 & Hn3).
  assert (has_nul (_get_language config) = false) as Hnul.
  { unfold has_config in Hc. destruct (has_nul _); [discriminate | reflexivity]. }
  unfold create_tables_data, rebuild_index. rewrite Hnul.
  destruct (tables db !! __tablename__) as [t |] eqn:Ht.
  - unfold run. cbn [parameters existsb]. rewrite Hnul. cbn [orb].
    fold ts_index_name. rewrite Hix, Ht, Hc.
    destruct (indexes db !! ts_index_name) as [[name | name l] |] eqn:Hi;
      [exfalso; exact (Hpk name eq_refl) | |];
      rewrite insert_delete_eq; reflexivity.
  - destruct (Hfree eq_refl) as [Hf1 Hf2].
    rewrite run_create_table, Hf1, (choose_pkey_name_free _ Hf2).
    unfold run. cbn [parameters existsb]. rewrite Hnul. cbn [orb tables indexes].
    fold ts_index_name.
    rewrite lookup_insert_ne by congruence. rewrite Hix.
    rewrite lookup_insert_ne by congruence.
    rewrite lookup_insert_eq, Hc.
    destruct (indexes db !! ts_index_name) as [[name | name l] |] eqn:Hi;
      [exfalso; exact (Hpk name eq_refl) | |];
      rewrite insert_delete_eq; reflexivity.
Qed.

(** C8, as the code has it.  [create_tables] is idempotent on every
    store: a second run ends as the first did and leaves the data, tables
    and indexes, as the first left them, and a run keeps the Query
    Records.  When the names of the module are free or denote its own
    objects and the configured language is a configuration the server
    knows, the run succeeds and leaves exactly one text-search index on
    the table, the module's, built for that language. *)
Theorem create_tables_idempotent config s :
  store (create_tables E config (create_tables E config s).2).2
    = store (create_tables E config s).2 ∧
  (create_tables E config (create_tables E config s).2).1
    = (create_tables E config s).1 ∧
  stored (create_tables E config s).2 = stored s ∧
  (catalog_ok (store s) →
   has_config E (_get_language config) = true →
   (create_tables E config s).1 = inr () ∧
   indexes (store (create_tables E config s).2) !! ts_index_name
     = Some (gin_tsvector __tablename__ (_get_language config)) ∧
   ∀ i lang,
     indexes (store (create_tables E config s).2) !! i
       = Some (gin_tsvector __tablename__ lang) →
     i = ts_index_name ∧ lang = _get_language config).
Proof.
  destruct (create_tables_as_data config s) as [Ho1 Hs1].
  destruct (create_tables_as_data config (create_tables E config s).2) as [Ho2 Hs2].
  rewrite Hs1 in Ho2, Hs2. rewrite create_tables_data_again in Ho2, Hs2.
  split; [congruence |]. split; [congruence |]. split.
  - unfold stored. rewrite Hs1. apply create_tables_data_records.
  - intros Hok Hc. rewrite Ho1, Hs1, (create_tables_data_ok config _ Hok Hc).
    destruct Hok as (_ & _ & _ & Hown). destruct names_distinct as (_ & _ & Hn3).
    cbn [fst snd]. split; [reflexivity |].
    destruct (tables (store s) !! __tablename__) as [t |]; cbn [indexes].
    + split; [apply lookup_insert_eq |]. intros i lang Hi.
      destruct (decide (i = ts_index_name)) as [-> | Hne].
      * rewrite lookup_insert_eq in Hi. injection Hi as <-. auto.
      * rewrite lookup_insert_ne in Hi by congruence.
        apply Hown in Hi. contradiction.
    + split; [apply lookup_insert_eq |]. intros i lang Hi.
      destruct (decide (i = ts_index_name)) as [-> | Hne].
      * rewrite lookup_insert_eq in Hi. injection Hi as <-. auto.
      * rewrite lookup_insert_ne in Hi by congruence.
        destruct (decide (i = pkey_name)) as [-> | Hne'].
        -- rewrite lookup_insert_eq in Hi. discriminate.
        -- rewrite lookup_insert_ne in Hi by congruence.
           apply Hown in Hi. contradiction.
Qed.
End CreateTables.

(** ** [SearchQuery.create] *)

Section Create.
Context (E : text_search).
Implicit Types (s : server) (t : table) (db : database).


(** [create] in the case where everything is in place. *)
Lemma create_fresh text s t :
  tables (store s) !! __tablename__ = Some t →
  sequence_ahead t →
  session s = Active →
  has_nul text = false →
  next_id t ≤ int4_max →
  create E text s =
  (inr (mkSearchQuery (next_id t) text),
   mkServer
     (mkDatabase
        (<[__tablename__ :=
             mkTable (rows t ++ [mkSearchQuery (next_id t) text]) (next_id t + 1)]>
           (tables (store s)))
        (indexes (store s)))
     (journal s ++ [insert_sql __tablename__ text]) Active).
Proof.
  intros Ht Hseq Hact Hnul Hmax. unfold create, send, run. rewrite Hact.
  cbn [parameters existsb]. rewrite Hnul. cbn [orb fst snd]. rewrite Ht.
  destruct (Z.ltb_spec int4_max (next_id t)); [lia |].
  rewrite bool_decide_eq_false_2; [reflexivity |].
  intros Hin. apply list_elem_of_fmap in Hin as (r & Hid & Hr).
  apply Hseq in Hr. lia.
Qed.

(** What a [create] that returns has found and done. *)
Lemma create_returns text s row :
  (create E text s).1 = inr row →
  ∃ t, tables (store s) !! __tablename__ = Some t ∧
       session s = Active ∧ has_nul text = false ∧ next_id t ≤ int4_max ∧
       row = mkSearchQuery (next_id t) text ∧
       store (create E text s).2 =
       mkDatabase
         (<[__tablename__ := mkTable (rows t ++ [row]) (next_id t + 1)]>
            (tables (store s)))
         (indexes (store s)).
Proof.
  unfold create, send, run. destruct (session s); [| discriminate].
  cbn [parameters existsb]. destruct (has_nul text); [discriminate |].
  cbn [orb fst snd]. destruct (tables (store s) !! __tablename__) as [t |];
    [| discriminate].
  destruct (Z.ltb_spec int4_max (next_id t)); [discriminate |].
  destruct (bool_decide _); [discriminate |].
  cbn [fst snd store]. intros [= <-]. exists t. auto 10.
Qed.

(** A [create] that raises stores nothing. *)
Lemma create_raises text s e :
  (create E text s).1 = inl e → stored (create E text s).2 = stored s.
Proof.
  unfold create, send, run, stored, records. destruct (session s); [| reflexivity].
  cbn [parameters existsb]. destruct (has_nul text); [reflexivity |].
  cbn [orb fst snd]. destruct (tables (store s) !! __tablename__) as [t |] eqn:Ht;
    [| cbn [fst snd store]; rewrite Ht; reflexivity].
  destruct (int4_max <? next_id t); [cbn [fst snd store]; rewrite Ht; reflexivity |].
  destruct (bool_decide _); [| discriminate].
  cbn [fst snd store tables]. rewrite lookup_insert_eq. reflexivity.
Qed.

Lemma sequence_ahead_snoc t text :
  sequence_ahead t →
  sequence_ahead
    (mkTable (rows t ++ [mkSearchQuery (next_id t) text]) (next_id t + 1)).
Proof.
  intros Hseq r. simpl. rewrite elem_of_app, list_elem_of_singleton.
  intros [Hr | ->]; [apply Hseq in Hr; lia | simpl; lia].
Qed.

End Create.

(** * Further properties of the module *)

(** ** The states the module reaches *)

Section Reachable.
Context (E : text_search).
Implicit Types (s : server) (t : table) (db : database).

Lemma suggest_store config terms limit min_score s :
  store (suggest E config terms limit min_score s).2 = store s.
Proof. rewrite suggest_unfold. reflexivity. Qed.

(** What [create] does to the data. *)
Lemma create_store_cases text s :
  store (create E text s).2 = store s ∨
  ∃ t, tables (store s) !! __tablename__ = Some t ∧
       (((next_id t ∈ id <$> rows t) ∧
         store (create E text s).2 =
         mkDatabase
           (<[__tablename__ := mkTable (rows t) (next_id t + 1)]> (tables (store s)))
           (indexes (store s))) ∨
        ((next_id t ∉ id <$> rows t) ∧
         store (create E text s).2 =
         mkDatabase
           (<[__tablename__ :=
                mkTable (rows t ++ [mkSearchQuery (next_id t) text]) (next_id t + 1)]>
              (tables (store s)))
           (indexes (store s)))).
Proof.
  unfold create, send, run. destruct (session s); [| left; reflexivity].
  cbn [parameters existsb]. destruct (has_nul text); [left; reflexivity |].
  cbn [orb fst snd]. destruct (tables (store s) !! __tablename__) as [t |];
    [| left; reflexivity].
  destruct (int4_max <? next_id t); [left; reflexivity |].
  right. exists t. split; [reflexivity |].
  destruct (bool_decide (next_id t ∈ id <$> rows t)) eqn:Hin.
  - left. split; [apply bool_decide_eq_true in Hin; exact Hin | reflexivity].
  - right. split; [apply bool_decide_eq_false in Hin; exact Hin | reflexivity].
Qed.

Lemma keys_in_order_create text s :
  keys_in_order s → keys_in_order (create E text s).2.
Proof.
  intros Hkeys. unfold keys_in_order.
  destruct (create_store_cases text s) as [-> | (t0 & Ht0 & [[Hin ->] | [Hin ->]])];
    [exact Hkeys | |]; destruct (Hkeys t0 Ht0) as [Hseq Hnd]; intros t;
    cbn [tables]; rewrite lookup_insert_eq; intros [= <-].
  - split; [| exact Hnd]. intros r Hr. apply Hseq in Hr. simpl. lia.
  - split; [apply sequence_ahead_snoc, Hseq |]. cbn [rows].
    rewrite fmap_app. apply NoDup_app. split; [exact Hnd |].
    split; [| apply NoDup_singleton].
    intros k Hk Hk'. apply list_elem_of_singleton in Hk'. simpl in Hk'. subst k.
    contradiction.
Qed.

Lemma keys_in_order_data s s' :
  tables (store s') !! __tablename__ = tables (store s) !! __tablename__ →
  keys_in_order s → keys_in_order s'.
Proof. intros Heq Hkeys t. rewrite Heq. apply Hkeys. Qed.

Lemma sequence_ahead_new_table : sequence_ahead (mkTable [] 1).
Proof. intros r Hr. apply elem_of_nil in Hr. contradiction. Qed.

(** The table after [create_tables]: the one there was, or a new and
    empty one, or still none. *)
Lemma create_tables_table config s :
  tables (store (create_tables E config s).2) !! __tablename__
    = tables (store s) !! __tablename__ ∨
  (tables (store s) !! __tablename__ = None ∧
   tables (store (create_tables E config s).2) !! __tablename__
     = Some (mkTable [] 1)).
Proof.
  destruct (create_tables_as_data E config s) as [_ ->].
  unfold create_tables_data.
  destruct (tables (store s) !! __tablename__) as [t |] eqn:Ht.
  - left. rewrite rebuild_index_tables. exact Ht.
  - rewrite run_create_table.
    destruct (relation_exists (store s) __tablename__); [left; exact Ht |].
    right. split; [reflexivity |]. rewrite rebuild_index_tables. cbn [tables].
    apply lookup_insert_eq.
Qed.


Lemma keys_in_order_create_tables config s :
  keys_in_order s → keys_in_order (create_tables E config s).2.
Proof.
  intros Hkeys t.
  destruct (create_tables_table config s) as [-> | [_ ->]]; [apply Hkeys |].
  intros [= <-]. split; [apply sequence_ahead_new_table | constructor].
Qed.

Lemma reachable_keys_in_order s : reachable E s → keys_in_order s.
Proof.
  induction 1 as [| config s Hs Hkeys | text s Hs Hkeys
                  | config terms limit min_score s Hs Hkeys].
  - intros t Ht. simpl in Ht. rewrite lookup_empty in Ht. discriminate.
  - apply keys_in_order_create_tables, Hkeys.
  - apply keys_in_order_create, Hkeys.
  - unfold keys_in_order. rewrite suggest_store. exact Hkeys.
Qed.

(** A catalog with nothing but the module's objects has the names of the
    module in order. *)
Lemma module_objects_only_catalog_ok db : module_objects_only db → catalog_ok db.
Proof.
  intros (Htab & Hidx & Hpk). destruct names_distinct as (Hn1 & Hn2 & Hn3).
  split; [| split; [| split]].
  - destruct (tables db !! ts_index_name) as [t |] eqn:Ht; [| reflexivity].
    apply Htab in Ht. contradiction.
  - intros name Hi. apply Hidx in Hi as [[Heq _] | [_ [l Hl]]];
      [symmetry in Heq; contradiction | discriminate].
  - intros Ht. unfold relation_exists. rewrite !bool_decide_eq_false.
    split; intros [[x Hx] | [x Hx]].
    + congruence.
    + apply Hidx in Hx as [[Heq _] | [Heq _]]; symmetry in Heq; contradiction.
    + apply Htab in Hx. contradiction.
    + assert (is_Some (tables db !! __tablename__)) as [y Hy] by (apply Hpk; eauto).
      congruence.
  - intros i lang Hi. apply Hidx in Hi as [[_ Hd] | [Heq _]]; [discriminate | exact Heq].
Qed.

Lemma module_objects_only_rebuild lang db :
  module_objects_only db → module_objects_only (rebuild_index E lang db).2.
Proof.
  intros Hmod. pose proof Hmod as (Htab & Hidx & Hpk).
  destruct names_distinct as (Hn1 & Hn2 & Hn3).
  unfold rebuild_index, run. destruct (has_nul lang) eqn:Hn; [exact Hmod |].
  cbn [parameters existsb]. rewrite Hn. cbn [orb]. fold ts_index_name.
  destruct (tables db !! ts_index_name) as [t' |]; [exact Hmod |].
  assert (module_objects_only
            (mkDatabase (tables db)
               (<[ts_index_name := gin_tsvector __tablename__ lang]>
                  (delete ts_index_name (indexes db))))) as Hnew.
  { split; [exact Htab |]. split; cbn [tables indexes].
    - intros i d. destruct (decide (i = ts_index_name)) as [-> | Hne].
      + rewrite lookup_insert_eq. intros [= <-]. right. eauto.
      + rewrite lookup_insert_ne, lookup_delete_ne by congruence. apply Hidx.
    - rewrite lookup_insert_ne, lookup_delete_ne by congruence. exact Hpk. }
  destruct (indexes db !! ts_index_name) as [[nm | nm l] |]; [exact Hmod | |];
    (destruct (tables db !! __tablename__) as [t |]; [| exact Hmod]);
    (destruct (has_config E lang); [exact Hnew | exact Hmod]).
Qed.

Lemma module_objects_only_create_tables config db :
  module_objects_only db → module_objects_only (create_tables_data E config db).2.
Proof.
  intros Hmod. unfold create_tables_data.
  destruct (tables db !! __tablename__) as [t |] eqn:Ht;
    [apply module_objects_only_rebuild, Hmod |].
  rewrite run_create_table.
  destruct (relation_exists db __tablename__); [exact Hmod |].
  apply module_objects_only_rebuild.
  destruct (module_objects_only_catalog_ok db Hmod) as (_ & _ & Hfree & _).
  destruct (Hfree Ht) as [_ Hfree_pkey]. rewrite (choose_pkey_name_free _ Hfree_pkey).
  destruct Hmod as (Htab & Hidx & Hpk). split; [| split]; cbn [tables indexes].
  - intros name t. destruct (decide (name = __tablename__)) as [-> | Hne]; [auto |].
    rewrite lookup_insert_ne by congruence. apply Htab.
  - intros i d. destruct (decide (i = pkey_name)) as [-> | Hne].
    + rewrite lookup_insert_eq. intros [= <-]. left. auto.
    + rewrite lookup_insert_ne by congruence. apply Hidx.
  - rewrite !lookup_insert_eq. split; eauto.
Qed.

Lemma module_objects_only_create text s :
  module_objects_only (store s) → module_objects_only (store (create E text s).2).
Proof.
  intros Hmod.
  destruct (create_store_cases text s) as [-> | (t0 & Ht0 & [[_ ->] | [_ ->]])];
    [exact Hmod | |]; destruct Hmod as (Htab & Hidx & Hpk);
    (split; [| split]); cbn [tables indexes]; try exact Hidx.
  all: try (intros name t; destruct (decide (name = __tablename__)) as [-> | Hne];
            [auto | rewrite lookup_insert_ne by congruence; apply Htab]).
  all: rewrite lookup_insert_eq, <- Hpk, Ht0; split; eauto.
Qed.

Lemma reachable_module_objects_only s :
  reachable E s → module_objects_only (store s).
Proof.
  induction 1 as [| config s Hs Hmod | text s Hs Hmod
                  | config terms limit min_score s Hs Hmod].
  - split; [| split]; simpl.
    + intros name t Ht. rewrite lookup_empty in Ht. discriminate.
    + intros i d Hi. rewrite lookup_empty in Hi. discriminate.
    + rewrite !lookup_empty. split; intros [x Hx]; discriminate.
  - destruct (create_tables_as_data E config s) as [_ ->].
    apply module_objects_only_create_tables, Hmod.
  - apply module_objects_only_create, Hmod.
  - rewrite suggest_store. exact Hmod.
Qed.

(** X1.  In every state the module reaches from the server with no
    table, the catalog holds nothing but the module's objects (the table,
    the index of its primary key, there exactly when the table is, and
    at most the one text-search index), the sequence of the table is
    ahead of the keys in use, and no two Query Records have the same
    key. *)
Theorem reachable_invariant s :
  reachable E s → module_objects_only (store s) ∧ keys_in_order s.
Proof.
  intros Hs. split; [apply reachable_module_objects_only | apply reachable_keys_in_order];
    exact Hs.
Qed.

(** X2.  In a state the module reaches, [create] never collides with a
    key in use.  It returns a record with the given text and the Query
    Records grow by exactly that record whenever the session is usable,
    the text has no NUL, the table exists and the sequence has not run
    past the [Integer] range; otherwise it raises one of
    [InvalidRequestError], [ValueError], [ProgrammingError] and
    [DataError] and stores nothing. *)
Theorem create_in_reachable_state text s :
  reachable E s →
  (∀ t, session s = Active → has_nul text = false →
        tables (store s) !! __tablename__ = Some t → next_id t ≤ int4_max →
        ∃ row, (create E text s).1 = inr row ∧ q row = text ∧
               stored (create E text s).2 = stored s ++ [row]) ∧
  (∀ e, (create E text s).1 = inl e →
        stored (create E text s).2 = stored s ∧
        e ∈ [InvalidRequestError; ValueError; ProgrammingError; DataError]).
Proof.
  intros Hs. pose proof (reachable_keys_in_order s Hs) as Hkeys. split.
  - intros t Hact Hnul Ht Hmax. destruct (Hkeys t Ht) as [Hseq _].
    rewrite (create_fresh E text s t Ht Hseq Hact Hnul Hmax).
    eexists. split; [reflexivity |]. split; [reflexivity |].
    unfold stored, records. cbn [snd store tables].
    rewrite lookup_insert_eq, Ht. reflexivity.
  - intros e He. split; [exact (create_raises E text s e He) |].
    revert He. unfold create, send, run.
    destruct (session s); [| intros [= <-]; set_solver].
    cbn [parameters existsb]. destruct (has_nul text); [intros [= <-]; set_solver |].
    cbn [orb fst snd]. destruct (tables (store s) !! __tablename__) as [t |] eqn:Ht;
      [| intros [= <-]; set_solver].
    destruct (int4_max <? next_id t); [intros [= <-]; set_solver |].
    destruct (Hkeys t Ht) as [Hseq _].
    rewrite bool_decide_eq_false_2; [discriminate |].
    intros Hin. apply list_elem_of_fmap in Hin as (r & Hid & Hr).
    apply Hseq in Hr. lia.
Qed.
End Reachable.

(** ** [create_tables] and the language *)

Section Rebuild.
Context (E : text_search).
Implicit Types (config : gmap string string) (s : server) (db : database).

(** Rebuilding the index on a catalog where its name is free or denotes
    a text-search index, and the table exists. *)
Lemma rebuild_index_ok lang db :
  tables db !! ts_index_name = None →
  (∀ name, indexes db !! ts_index_name ≠ Some (primary_key name)) →
  is_Some (tables db !! __tablename__) →
  (rebuild_index E lang db).2 =
  if has_config E lang then
    mkDatabase (tables db)
      (<[ts_index_name := gin_tsvector __tablename__ lang]> (indexes db))
  else db.
Proof.
  intros Hix Hpk [t Ht]. unfold rebuild_index.
  destruct (has_nul lang) eqn:Hn;
    [unfold has_config; rewrite Hn; reflexivity |].
  unfold run. cbn [parameters existsb]. rewrite Hn. cbn [orb]. fold ts_index_name.
  rewrite Hix, Ht.
  destruct (indexes db !! ts_index_name) as [[name | name l] |] eqn:Hi;
    [exfalso; exact (Hpk name eq_refl) | |];
    (destruct (has_config E lang); [| reflexivity]);
    cbn [snd]; rewrite insert_delete_eq; reflexivity.
Qed.

(** X3.  The last run of [create_tables] decides.  When the names of the
    module are free or denote its own objects and the second
    configuration names a language the server knows, a run under one
    configuration followed by a run under the second leaves the data a
    single run under the second leaves: the index is the one for the
    second language, whether the first run succeeded or raised. *)
Theorem create_tables_last_wins config1 config2 s :
  catalog_ok (store s) →
  has_config E (_get_language config2) = true →
  store (create_tables E config2 (create_tables E config1 s).2).2
  = store (create_tables E config2 s).2.
Proof.
  intros Hok Hc2. pose proof Hok as (Hix & Hpk & Hfree & Hown).
  destruct names_distinct as (Hn1 & Hn2 & Hn3).
  destruct (create_tables_as_data E config2 (create_tables E config1 s).2) as [_ ->].
  destruct (create_tables_as_data E config1 s) as [_ ->].
  destruct (create_tables_as_data E config2 s) as [_ ->].
  rewrite (create_tables_data_ok E config2 (store s) Hok Hc2). cbn [snd].
  unfold create_tables_data at 2.
  destruct (tables (store s) !! __tablename__) as [t |] eqn:Ht.
  - rewrite (rebuild_index_ok _ _ Hix Hpk) by eauto.
    unfold create_tables_data.
    destruct (has_config E (_get_language config1)).
    + cbn [tables]. rewrite Ht.
      rewrite rebuild_index_ok; cbn [tables indexes]; eauto.
      * rewrite Hc2, insert_insert_eq. reflexivity.
      * intros name. rewrite lookup_insert_eq. discriminate.
    + rewrite Ht. rewrite (rebuild_index_ok _ _ Hix Hpk) by eauto.
      rewrite Hc2. reflexivity.
  - destruct (Hfree eq_refl) as [Hf1 Hf2].
    rewrite run_create_table, Hf1, (choose_pkey_name_free _ Hf2).
    assert (∀ name, <[pkey_name := primary_key __tablename__]> (indexes (store s))
                      !! ts_index_name ≠ Some (primary_key name)) as Hpk'.
    { intros name. rewrite lookup_insert_ne by congruence. apply Hpk. }
    assert (<[__tablename__ := mkTable [] 1]> (tables (store s)) !! ts_index_name
            = None) as Hix'.
    { rewrite lookup_insert_ne by congruence. exact Hix. }
    rewrite rebuild_index_ok; cbn [tables indexes];
      [| exact Hix' | exact Hpk' | rewrite lookup_insert_eq; eauto].
    unfold create_tables_data.
    destruct (has_config E (_get_language config1)).
    + cbn [tables]. rewrite lookup_insert_eq.
      rewrite rebuild_index_ok; cbn [tables indexes];
        [| exact Hix' | | rewrite lookup_insert_eq; eauto].
      * rewrite Hc2, insert_insert_eq. reflexivity.
      * intros name. rewrite lookup_insert_eq. discriminate.
    + cbn [tables]. rewrite lookup_insert_eq.
      rewrite rebuild_index_ok; cbn [tables indexes];
        [| exact Hix' | exact Hpk' | rewrite lookup_insert_eq; eauto].
      rewrite Hc2. reflexivity.
Qed.

End Rebuild.

(** ** The threshold and the limit *)





Section Threshold.
Context (E : text_search).
Implicit Types (config : gmap string string) (terms : list string) (s : server).



End Threshold.

(** ** What the answers depend on *)

Lemma fmap_filter_q (P : string → Prop) `{∀ x, Decision (P x)}
    (rs : list SearchQuery) :
  q <$> filter (λ r, P (q r)) rs = filter P (q <$> rs).
Proof.
  induction rs as [| r rs IH]; [reflexivity |].
  rewrite fmap_cons, !filter_cons. destruct (decide (P (q r))).
  - rewrite fmap_cons, IH. reflexivity.
  - exact IH.
Qed.

Lemma occurrences_singleton (x y : string) :
  occurrences x [y] = if decide (x = y) then 1%nat else 0%nat.
Proof.
  unfold occurrences. rewrite filter_cons. destruct (decide (x = y)); reflexivity.
Qed.

Section Dependence.
Context (E : text_search).
Implicit Types (config : gmap string string) (terms : list string).
Implicit Types (s : server) (t : table) (rs : list SearchQuery).

Lemma fmap_filter_match lang (query : tsquery E) rs :
  q <$> filter (λ r, ts_match E (to_tsvector E lang (q r)) query = true) rs
  = filter (λ x, ts_match E (to_tsvector E lang x) query = true) (q <$> rs).
Proof.
  exact (fmap_filter_q (λ x, ts_match E (to_tsvector E lang x) query = true) rs).
Qed.

Lemma matching_texts lang (query : tsquery E) rs rs' :
  q <$> rs = q <$> rs' → matching E lang query rs = matching E lang query rs'.
Proof.
  intros Heq. unfold matching. rewrite !fmap_filter_match, Heq. reflexivity.
Qed.

(** X9.  The keys play no part in the answers: two stores whose Query
    Records carry the same texts in the same order get the same outcome
    from [suggest], whatever the keys of the records. *)
Theorem suggest_ignores_keys config terms limit min_score s s' t t' :
  tables (store s) !! __tablename__ = Some t →
  tables (store s') !! __tablename__ = Some t' →
  q <$> rows t = q <$> rows t' →
  (suggest E config terms limit min_score s).1
  = (suggest E config terms limit min_score s').1.
Proof.
  intros Ht Ht' Heq. rewrite !suggest_unfold. cbn [fst]. rewrite Ht, Ht'.
  destruct (has_nul _ || has_nul _); [reflexivity |].
  destruct (negb _); [reflexivity |]. destruct (_ || _); [reflexivity |].
  destruct (to_tsquery E _ _) as [query |]; [| reflexivity].
  destruct (limit <? 0); [reflexivity |].
  unfold select_suggestions, sorted, ranked.
  rewrite (matching_texts _ _ _ _ Heq). reflexivity.
Qed.

Lemma ranked_Permutation lang (query : tsquery E) rs rs' :
  q <$> rs ≡ₚ q <$> rs' → ranked E lang query rs ≡ₚ ranked E lang query rs'.
Proof.
  intros Hperm.
  apply NoDup_Permutation;
    [apply (NoDup_fmap_1 s_q), NoDup_ranked
    | apply (NoDup_fmap_1 s_q), NoDup_ranked |].
  intros a. rewrite !elem_of_ranked. unfold occurrences. rewrite Hperm.
  reflexivity.
Qed.

(** X6.  The order in which the texts were logged plays no part either,
    up to the order among entries the query does not tell apart: when two
    stores hold the same texts as often, and the limit cuts nothing off,
    the lists [suggest] returns for them have the same entries. *)
Theorem suggest_ignores_log_order config terms limit min_score s s' l l' :
  q <$> stored s ≡ₚ q <$> stored s' →
  Z.of_nat (length (stored s)) ≤ limit →
  (suggest E config terms limit min_score s).1 = inr l →
  (suggest E config terms limit min_score s').1 = inr l' →
  l ≡ₚ l'.
Proof.
  intros Hperm Hlimit Hl Hl'.
  apply suggest_returns in Hl as (t & query & Ht & Hq & _ & ->).
  apply suggest_returns in Hl' as (t' & query' & Ht' & Hq' & _ & ->).
  assert (query' = query) as -> by congruence.
  unfold stored, records in Hperm, Hlimit. rewrite Ht in Hperm, Hlimit.
  rewrite Ht' in Hperm.
  assert (length (rows t') = length (rows t)) as Hlen.
  { rewrite <- (length_fmap q (rows t')), <- (length_fmap q (rows t)).
    rewrite Hperm. reflexivity. }
  unfold select_suggestions. rewrite !take_ge.
  - rewrite !sorted_ranked, (ranked_Permutation _ _ _ _ Hperm). reflexivity.
  - etransitivity; [apply length_filter |]. rewrite sorted_ranked.
    etransitivity; [apply length_ranked |]. lia.
  - etransitivity; [apply length_filter |]. rewrite sorted_ranked.
    etransitivity; [apply length_ranked |]. lia.
Qed.

(** X7.  A logged text is found at once: when [create] has returned for
    a text that matches the request with a rank of [min_score] or more,
    [suggest] returns a list that holds the text, provided the limit is
    greater than the number of records there were and no greater than the
    largest [bigint]. *)
Theorem suggest_after_create config terms limit min_score text s row :
  (create E text s).1 = inr row →
  matches E config terms text = true →
  (min_score <= relevance E config terms text)%Q →
  Z.of_nat (length (stored s)) < limit ≤ int8_max →
  ∃ l, (suggest E config terms limit min_score (create E text s).2).1 = inr l ∧
       text ∈ l.
Proof.
  intros Hrow Hm Hrank Hlimit. unfold matches in Hm. unfold relevance in Hrank.
  destruct (to_tsquery E (_get_language config) (tsquery_text terms))
    as [query |] eqn:Hq; [| discriminate].
  apply create_returns in Hrow as (t & Ht & _ & _ & _ & -> & Hstore).
  unfold stored, records in Hlimit. rewrite Ht in Hlimit.
  eexists. split.
  - apply suggest_succeeds with (query := query);
      [rewrite Hstore; cbn [tables]; apply lookup_insert_eq | exact Hq | lia].
  - cbn [rows]. apply list_elem_of_fmap.
    exists (mkSuggestion text
              (ts_rank E (to_tsvector E (_get_language config) text) query)
              (occurrences text (q <$> (rows t ++ [mkSearchQuery (next_id t) text])))).
    split; [reflexivity |]. apply select_complete.
    + rewrite length_app. simpl. lia.
    + apply elem_of_ranked. simpl. split; [| auto].
      rewrite fmap_app, elem_of_app. right. apply list_elem_of_singleton. reflexivity.
    + exact Hrank.
Qed.

(** X11.  When [create] returns, the occurrence count of its text has
    grown by one and the count of every other text is as it was; when it
    raises, every count is as it was. *)
Theorem create_counts text text' s :
  (∀ row, (create E text s).1 = inr row →
          occurrence_count (create E text s).2 text'
          = (occurrence_count s text' + (if decide (text' = text) then 1 else 0))%nat) ∧
  (∀ e, (create E text s).1 = inl e →
        occurrence_count (create E text s).2 text' = occurrence_count s text').
Proof.
  split.
  - intros row Hrow.
    apply create_returns in Hrow as (t & Ht & _ & _ & _ & -> & Hstore).
    unfold occurrence_count, stored, records. rewrite Hstore. cbn [tables].
    rewrite lookup_insert_eq, Ht. cbn [rows].
    rewrite fmap_app, occurrences_app. simpl. rewrite occurrences_singleton.
    reflexivity.
  - intros e He. unfold occurrence_count. rewrite (create_raises E text s e He).
    reflexivity.
Qed.
End Dependence.

(** ** What is returned and what is cut off *)

Section Answer.
Context (E : text_search).
Implicit Types (config : gmap string string) (terms : list string) (s : server).

(** The row of the query for a stored text that matches. *)
Lemma ranked_entry config terms s t (query : tsquery E) text :
  tables (store s) !! __tablename__ = Some t →
  to_tsquery E (_get_language config) (tsquery_text terms) = Some query →
  text ∈ q <$> stored s →
  matches E config terms text = true →
  mkSuggestion text (relevance E config terms text) (occurrence_count s text)
    ∈ ranked E (_get_language config) query (rows t).
Proof.
  intros Ht Hq Hin Hm. unfold matches in Hm.
  unfold relevance, occurrence_count, stored, records in *. rewrite Ht in *.
  rewrite Hq in *. apply elem_of_ranked. simpl. auto.
Qed.

(** X10.  With a limit that cuts nothing off, [suggest] returns exactly
    the stored texts that match the request as the server parses it and
    whose rank is [min_score] or more. *)
Theorem suggest_exact config terms limit min_score s l :
  (suggest E config terms limit min_score s).1 = inr l →
  Z.of_nat (length (stored s)) ≤ limit →
  ∀ text, text ∈ l ↔
    text ∈ q <$> stored s ∧
    matches E config terms text = true ∧
    (min_score <= relevance E config terms text)%Q.
Proof.
  intros Hret Hlimit text.
  apply suggest_returns in Hret as (t & query & Ht & Hq & _ & ->). split.
  - intros Htext. apply list_elem_of_fmap in Htext as (a & -> & Ha).
    destruct (selected_entry E config terms min_score _ s t query a Ht Hq Ha)
      as ((r & Hr & Hqr) & Hm & Hrank & _ & Hmin).
    split; [apply list_elem_of_fmap; eauto |]. split; [exact Hm |].
    rewrite <- Hrank. exact Hmin.
  - intros (Hin & Hm & Hmin). apply list_elem_of_fmap.
    exists (mkSuggestion text (relevance E config terms text)
              (occurrence_count s text)).
    split; [reflexivity |]. apply select_complete.
    + unfold stored, records in Hlimit. rewrite Ht in Hlimit. lia.
    + eapply ranked_entry; eassumption.
    + exact Hmin.
Qed.

(** X12.  The limit keeps the best: an entry [suggest] returns stands, in
    the order of the query, before every stored text that matches with a
    rank of [min_score] or more and is not returned; its rank is at least
    as high and, at equal rank, its occurrence count is. *)
Theorem suggest_keeps_the_best config terms limit min_score s l x y :
  (suggest E config terms limit min_score s).1 = inr l →
  x ∈ l → y ∉ l →
  y ∈ q <$> stored s →
  matches E config terms y = true →
  (min_score <= relevance E config terms y)%Q →
  (relevance E config terms y <= relevance E config terms x)%Q ∧
  ((relevance E config terms x == relevance E config terms y)%Q →
   (occurrence_count s y ≤ occurrence_count s x)%nat).
Proof.
  intros Hret Hx Hy Hin Hm Hmin.
  apply suggest_returns in Hret as (t & query & Ht & Hq & _ & ->).
  apply list_elem_of_fmap in Hx as (a & -> & Ha).
  destruct (selected_entry E config terms min_score _ s t query a Ht Hq Ha)
    as (_ & _ & Hrank & Hcount & _).
  set (b := mkSuggestion y (relevance E config terms y) (occurrence_count s y)).
  set (full := filter (λ c, Qle_bool min_score (s_rank c) = true)
                 (sorted E (_get_language config) query (rows t))).
  assert (b ∈ full) as Hb.
  { apply list_elem_of_filter. split; [apply Qle_bool_iff; exact Hmin |].
    rewrite sorted_ranked. eapply ranked_entry; eassumption. }
  assert (StronglySorted order_by full) as Hsorted.
  { apply (StronglySorted_sublist _ _ (sorted E (_get_language config) query (rows t)));
      [apply sublist_filter | apply sorted_StronglySorted]. }
  unfold select_suggestions in Ha, Hy. fold full in Ha, Hy.
  rewrite <- (take_drop (Z.to_nat limit) full) in Hb, Hsorted.
  apply elem_of_app in Hb as [Hb | Hb].
  { exfalso. apply Hy. apply list_elem_of_fmap. exists b. split; [reflexivity | exact Hb]. }
  apply StronglySorted_app in Hsorted as (Hab & _ & _).
  specialize (Hab a b Ha Hb). apply order_by_spec in Hab. simpl in Hab.
  rewrite Hrank, Hcount in Hab.
  destruct Hab as [Hlt | [Heq Hc]].
  - split; [lra |]. intros Heq. lra.
  - split; [lra |]. intros _. exact Hc.
Qed.
End Answer.

(** * The code on concrete stores *)

(** Scenario A: nothing logged, no suggestion. *)
Example scenario_a_empty :
  (suggest simple simple_config ["cat"] 10 0 (server_with [])).1 = inr [].
Proof. vm_compute. reflexivity. Qed.

(** Scenario B: at equal rank the more frequent text comes first. *)
Example scenario_b_order :
  (suggest simple simple_config ["cat"] 10 0 scenario_b).1
  = inr ["cat dog"; "cat fish"].
Proof. vm_compute. reflexivity. Qed.

(** Scenario C: no common term, no suggestion. *)
Example scenario_c_no_match :
  (suggest simple simple_config ["wolf"] 10 0 one_text).1 = inr [].
Proof. vm_compute. reflexivity. Qed.

(** Scenario D: five matching texts, limit one. *)
Example scenario_d_limit :
  (suggest simple simple_config ["cat"] 1 0
     (server_with ["cat a"; "cat b"; "cat b"; "cat c"; "cat d"; "cat e"])).1
  = inr ["cat b"].
Proof. vm_compute. reflexivity. Qed.

Lemma scenario_b_reachable : reachable simple scenario_b.
Proof.
  unfold scenario_b, server_with, log_all. cbn [foldl].
  repeat apply reachable_create. apply reachable_create_tables, reachable_empty.
Defined.

Lemma scenario_b_catalog_ok : catalog_ok (store scenario_b).
Proof.
  apply module_objects_only_catalog_ok, (reachable_module_objects_only simple),
    scenario_b_reachable.
Defined.


Lemma suggest_sorted_witness :
  (relevance simple simple_config ["cat"] "cat fish"
   <= relevance simple simple_config ["cat"] "cat dog")%Q ∧
  ((relevance simple simple_config ["cat"] "cat dog"
    == relevance simple simple_config ["cat"] "cat fish")%Q →
   (occurrence_count scenario_b "cat fish" ≤ occurrence_count scenario_b "cat dog")%nat).
Proof.
  apply (suggest_sorted_by_rank_then_count simple simple_config ["cat"] 10 0 scenario_b
           ["cat dog"; "cat fish"]) with (i := 0%nat) (j := 1%nat).
  - vm_compute. reflexivity.
  - lia.
  - reflexivity.
  - reflexivity.
Defined.

(** C2.  What [suggest] returns are distinct texts of stored Query
    Records that match the query the server reads the joined terms as;
    they need not contain any of the terms, whatever the comment in
    [suggest] says of the rows the query finds.  The term [!wolf] is read
    as a negation: on a store with the single text "cat dog" [suggest]
    returns that text, though no lexeme of the term is among the lexemes
    of the text. *)
Theorem suggest_returns_text_without_term :
  (∀ (E : text_search) config terms limit min_score s l,
     (suggest E config terms limit min_score s).1 = inr l →
     NoDup l ∧
     ∀ x, x ∈ l → x ∈ q <$> stored s ∧ matches E config terms x = true) ∧
  (suggest simple simple_config ["!wolf"] 10 0 one_text).1 = inr ["cat dog"] ∧
  q <$> stored one_text = ["cat dog"] ∧
  ∀ x, x ∈ Simple.lexemes "!wolf" → x ∉ Simple.lexemes "cat dog".
Proof.
  split.
  { intros E config terms limit min_score s l Hret.
    apply suggest_returns in Hret as (t & query & Ht & Hq & _ & ->).
    split; [apply select_NoDup |].
    intros x Hx. apply list_elem_of_fmap in Hx as (a & -> & Ha).
    destruct (selected_entry E config terms min_score _ s t query a Ht Hq Ha)
      as ((r & Hr & Hqr) & Hm & _).
    split; [apply list_elem_of_fmap; eauto | exact Hm]. }
  split; [vm_compute; reflexivity |]. split; [vm_compute; reflexivity |].
  intros x Hx Htext. vm_compute in Hx, Htext.
  apply list_elem_of_singleton in Hx as ->.
  apply elem_of_cons in Htext as [Heq | Htext]; [discriminate |].
  apply list_elem_of_singleton in Htext. discriminate.
Qed.

Lemma suggest_returns_text_without_term_witness :
  NoDup ["cat dog"] ∧
  ∀ x, x ∈ ["cat dog"] →
       x ∈ q <$> stored one_text ∧ matches simple simple_config ["!wolf"] x = true.
Proof.
  destruct suggest_returns_text_without_term as [Hgeneral _].
  apply (Hgeneral simple simple_config ["!wolf"] 10 0%Q one_text).
  vm_compute. reflexivity.
Defined.

Lemma suggest_min_score_witness :
  ¬ (relevance simple simple_config ["cat"] "cat dog" < 1 # 10)%Q ∧
  "cat fish" ∈ ["cat dog"; "cat fish"].
Proof.
  destruct (suggest_min_score simple simple_config ["cat"] 10 (1 # 10) scenario_b
              ["cat dog"; "cat fish"]) as [Habove Hkept].
  - vm_compute. reflexivity.
  - split.
    + apply Habove. apply list_elem_of_lookup. exists 0%nat. reflexivity.
    + apply (Hkept (mkSearchQuery 2 "cat fish")).
      * apply list_elem_of_lookup. exists 1%nat. reflexivity.
      * vm_compute. reflexivity.
      * vm_compute. discriminate.
      * vm_compute. discriminate.
Defined.



Lemma suggest_no_terms_witness :
  (suggest simple simple_config [] 10 0 scenario_b).1 = inr [].
Proof.
  apply (suggest_no_terms simple simple_config 10 0 scenario_b
           (mkTable (stored scenario_b) 5) Simple.QEmpty).
  - vm_compute. reflexivity.
  - vm_compute. reflexivity.
  - intros v. reflexivity.
  - split; vm_compute; discriminate.
Defined.

(** C5, counterexample.  On a server where [create_tables] has not run,
    [suggest] with no terms raises. *)
Lemma suggest_no_terms_without_table :
  (suggest simple simple_config [] 10 0 empty_server).1 = inl ProgrammingError.
Proof. vm_compute. reflexivity. Qed.





Lemma create_tables_idempotent_witness :
  (create_tables simple simple_config scenario_b).1 = inr () ∧
  indexes (store (create_tables simple simple_config scenario_b).2) !! ts_index_name
    = Some (gin_tsvector __tablename__ (_get_language simple_config)) ∧
  store (create_tables simple simple_config
           (create_tables simple simple_config scenario_b).2).2
    = store (create_tables simple simple_config scenario_b).2.
Proof.
  destruct (create_tables_idempotent simple simple_config scenario_b)
    as (Hsame & _ & _ & Hok).
  destruct (Hok scenario_b_catalog_ok eq_refl) as (Hrun & Hindex & _).
  split; [exact Hrun |]. split; [exact Hindex | exact Hsame].
Defined.

(** C8, counterexample.  Configured for a language the server does not
    know, [create_tables] raises and leaves no text-search index. *)
Lemma create_tables_unknown_language :
  (create_tables simple klingon_config empty_server).1 = inl ProgrammingError ∧
  indexes (store (create_tables simple klingon_config empty_server).2)
    !! ts_index_name = None.
Proof. split; vm_compute; reflexivity. Qed.



(** ** The further properties on concrete stores *)

Lemma reachable_invariant_witness :
  module_objects_only (store scenario_b) ∧ keys_in_order scenario_b.
Proof. apply (reachable_invariant simple), scenario_b_reachable. Defined.

Lemma create_in_reachable_state_witness :
  ∃ row, (create simple "cat" scenario_b).1 = inr row ∧ q row = "cat" ∧
         stored (create simple "cat" scenario_b).2 = stored scenario_b ++ [row].
Proof.
  destruct (create_in_reachable_state simple "cat" scenario_b scenario_b_reachable)
    as [Hruns _].
  apply (Hruns (mkTable (stored scenario_b) 5)).
  - vm_compute. reflexivity.
  - reflexivity.
  - vm_compute. reflexivity.
  - vm_compute. discriminate.
Defined.

Lemma create_tables_last_wins_witness :
  store (create_tables simple simple_config
           (create_tables simple klingon_config scenario_b).2).2
  = store (create_tables simple simple_config scenario_b).2.
Proof.
  apply create_tables_last_wins; [apply scenario_b_catalog_ok | reflexivity].
Defined.




Lemma suggest_ignores_keys_witness :
  (suggest simple simple_config ["cat"] 10 0 scenario_b).1
  = (suggest simple simple_config ["cat"] 10 0
       (mkServer
          (mkDatabase
             {[ __tablename__ :=
                  mkTable [mkSearchQuery 40 "cat dog"; mkSearchQuery 30 "cat fish";
                           mkSearchQuery 20 "cat dog"; mkSearchQuery 10 "cat dog"] 50 ]}
             ∅) [] Active)).1.
Proof.
  eapply suggest_ignores_keys.
  - vm_compute. reflexivity.
  - vm_compute. reflexivity.
  - reflexivity.
Defined.

Lemma suggest_ignores_log_order_witness :
  ["cat dog"; "cat fish"] ≡ₚ ["cat fish"; "cat dog"].
Proof.
  apply (suggest_ignores_log_order simple simple_config ["cat"] 10 0
           (server_with ["cat dog"; "cat fish"])
           (server_with ["cat fish"; "cat dog"])).
  - change (["cat dog"; "cat fish"] ≡ₚ ["cat fish"; "cat dog"]). apply perm_swap.
  - vm_compute. discriminate.
  - vm_compute. reflexivity.
  - vm_compute. reflexivity.
Defined.

Lemma suggest_after_create_witness :
  ∃ l, (suggest simple simple_config ["cat"] 10 0
          (create simple "cat bird" scenario_b).2).1 = inr l ∧
       "cat bird" ∈ l.
Proof.
  apply (suggest_after_create simple simple_config ["cat"] 10 0 "cat bird" scenario_b
           (mkSearchQuery 5 "cat bird")).
  - vm_compute. reflexivity.
  - vm_compute. reflexivity.
  - vm_compute. discriminate.
  - split; [vm_compute; reflexivity | vm_compute; discriminate].
Defined.

Lemma create_counts_witness :
  occurrence_count (create simple "cat dog" scenario_b).2 "cat fish"
  = (occurrence_count scenario_b "cat fish"
     + (if decide ("cat fish" = "cat dog") then 1 else 0))%nat.
Proof.
  destruct (create_counts simple "cat dog" "cat fish" scenario_b) as [Hgrows _].
  apply (Hgrows (mkSearchQuery 5 "cat dog")). vm_compute. reflexivity.
Defined.

Lemma suggest_exact_witness :
  "cat fish" ∈ ["cat dog"; "cat fish"] ↔
  "cat fish" ∈ q <$> stored scenario_b ∧
  matches simple simple_config ["cat"] "cat fish" = true ∧
  (0 <= relevance simple simple_config ["cat"] "cat fish")%Q.
Proof.
  apply (suggest_exact simple simple_config ["cat"] 10 0 scenario_b).
  - vm_compute. reflexivity.
  - vm_compute. discriminate.
Defined.

Lemma suggest_keeps_the_best_witness :
  (relevance simple simple_config ["cat"] "cat fish"
   <= relevance simple simple_config ["cat"] "cat dog")%Q ∧
  ((relevance simple simple_config ["cat"] "cat dog"
    == relevance simple simple_config ["cat"] "cat fish")%Q →
   (occurrence_count scenario_b "cat fish" ≤ occurrence_count scenario_b "cat dog")%nat).
Proof.
  apply (suggest_keeps_the_best simple simple_config ["cat"] 1 0 scenario_b ["cat dog"]).
  - vm_compute. reflexivity.
  - apply list_elem_of_here.
  - intros Hin. apply list_elem_of_singleton in Hin. discriminate.
  - apply list_elem_of_lookup. exists 1%nat. reflexivity.
  - vm_compute. reflexivity.
  - vm_compute. discriminate.
Defined.
